(** * The task handler of jupyterlab-git

    A shallow embedding of the [TaskHandler] class (the registry of pending
    model tasks) and the properties its specification states about [add],
    [remove] and [execute].

    The class keeps a [LinkedList] of [{id, task}] records, draws task
    identifiers from [UUID.uuid4] and reports the oldest pending task on the
    [taskChanged] signal.  The three collaborators come from the phosphor
    libraries; they are modelled below by what the class uses of them. *)

From Equations Require Import Equations.
From Stdlib Require Import List Ascii String Arith Lia Bool Permutation.
Import ListNotations.
Open Scope string_scope.
Open Scope list_scope.

Set Implicit Arguments.

(** ** [@phosphor/collections]: the doubly linked list

    A list is the sequence of its values; a node is a position in that
    sequence, with the values on its left (nearest first), its own value and
    the values on its right.  [firstNode] is [null] (here [None]) on an empty
    list, and so is [next] on the last node. *)
Module LinkedList.
Section Nodes.
Variable T : Type.

Definition t := list T.

Record INode := mkNode {
  before : list T;
  value : T;
  after : list T
}.

(** The list a node belongs to. *)
Definition owner (node : INode) : t :=
  rev (before node) ++ value node :: after node.

Definition empty : t := [].

Definition length (l : t) : nat := List.length l.

Definition first (l : t) : option T := List.hd_error l.

Definition firstNode (l : t) : option INode :=
  match l with
  | [] => None
  | v :: rest => Some (mkNode [] v rest)
  end.

Definition next (node : INode) : option INode :=
  match after node with
  | [] => None
  | v :: rest => Some (mkNode (value node :: before node) v rest)
  end.

Definition addLast (l : t) (v : T) : t := l ++ [v].

(** Unlinks the node; its neighbours keep their order. *)
Definition removeNode (node : INode) : t :=
  rev (before node) ++ after node.

End Nodes.
End LinkedList.

Import LinkedList.

(** ** The handler's state *)

(** The object [add] appends to the list. *)
Record TaskRecord := mkTask {
  id : string;
  task : string
}.

(** [_taskList] is the private list of pending tasks.  [_taskChanged] stands
    for the signal: the arguments it has been emitted with, oldest first,
    which is what a connected slot has received.  [uuidsDrawn] counts the
    calls made to [UUID.uuid4]. *)
Record TaskHandler := mkHandler {
  _taskList : LinkedList.t TaskRecord;
  _taskChanged : list string;
  uuidsDrawn : nat
}.

(** [new TaskHandler(model)] *)
Definition constructor : TaskHandler := mkHandler (LinkedList.empty _) [] 0.

(** ** Methods as state transformers that may throw *)

Inductive exn :=
| TypeError
| Rejected (reason : string).

Inductive completion (A : Type) :=
| Normal (a : A)
| Throw (e : exn).
Arguments Throw {A} e.

Definition M (A : Type) : Type := TaskHandler -> completion A * TaskHandler.

Definition ret {A} (a : A) : M A := fun st => (Normal a, st).

Definition throw {A} (e : exn) : M A := fun st => (Throw e, st).

Definition bind {A B} (m : M A) (k : A -> M B) : M B :=
  fun st =>
    match m st with
    | (Normal a, st') => k a st'
    | (Throw e, st') => (Throw e, st')
    end.

Notation "x <- m ;; k" := (bind m (fun x => k))
  (at level 61, m at next level, right associativity).
Notation "m ;; k" := (bind m (fun _ => k))
  (at level 61, right associativity).

(** [try { body } finally { fin }]: [fin] runs however [body] completes, and
    the completion of [body] stands unless [fin] itself throws. *)
Definition try_finally {A} (body : M A) (fin : M unit) : M A :=
  fun st =>
    let (c, st1) := body st in
    match fin st1 with
    | (Normal _, st2) => (c, st2)
    | (Throw e, st2) => (Throw e, st2)
    end.

Definition get_taskList : M (LinkedList.t TaskRecord) :=
  fun st => (Normal (_taskList st), st).

Definition set_taskList (l : LinkedList.t TaskRecord) : M unit :=
  fun st => (Normal tt, mkHandler l (_taskChanged st) (uuidsDrawn st)).

(** [this._taskChanged.emit(args)] *)
Definition emit (args : string) : M unit :=
  fun st =>
    (Normal tt, mkHandler (_taskList st) (_taskChanged st ++ [args]) (uuidsDrawn st)).

(** What the signal has emitted between two states. *)
Definition emitted_since (st st' : TaskHandler) : list string :=
  skipn (List.length (_taskChanged st)) (_taskChanged st').

(** A value together with the fact that it is the value. *)
Definition inspect {A} (x : A) : {y : A | x = y} := exist _ x eq_refl.

(** The loop of [remove]:
    [while (node.next) { node = node.next; if (...) { removeNode; break } }].
    It returns the list as the loop leaves it.  The values are the objects
    [add] stored, so [node.value] is never falsy and the test is on the
    identifier alone. *)
Equations? walk (taskID : string) (node : INode TaskRecord)
  : LinkedList.t TaskRecord by wf (List.length (after node)) lt :=
  walk taskID node with inspect (next node) := {
    | exist _ None _ => owner node
    | exist _ (Some node') _ =>
        if (id (value node') =? taskID)%string
        then removeNode node'
        else walk taskID node' }.
Proof.
  unfold next in *. destruct (after node); [discriminate|].
  match goal with H : Some _ = Some _ |- _ => inversion H end. simpl. lia.
Qed.

Section Handler.

(** [UUID.uuid4()]: the identifier of the n-th draw. *)
Variable uuid4 : nat -> string.

Definition _generateTaskID : M string :=
  fun st =>
    (Normal (uuid4 (uuidsDrawn st)),
     mkHandler (_taskList st) (_taskChanged st) (S (uuidsDrawn st))).

Definition add (task : string) : M string :=
  id <- _generateTaskID ;;
  l <- get_taskList ;;
  set_taskList (addLast l (mkTask id task)) ;;
  l <- get_taskList ;;
  (if (LinkedList.length l =? 1)%nat then emit task else ret tt) ;;
  ret id.

(** [firstNode] of an empty list is [null]: the test [node && ...] is then
    false and the [else] branch reads [node.next]. *)
Definition remove (taskID : string) : M unit :=
  l <- get_taskList ;;
  match firstNode l with
  | Some node =>
      if (id (value node) =? taskID)%string
      then set_taskList (removeNode node)
      else set_taskList (walk taskID node)
  | None => throw TypeError
  end ;;
  l <- get_taskList ;;
  if (LinkedList.length l =? 0)%nat then emit "empty"
  else match first l with
       | Some r => emit (task r)
       | None => throw TypeError
       end.

(** [callable] is the awaited operation: whatever happens to the handler
    until the promise settles, and how it settles. *)
Definition execute {R} (name : string) (callable : M R) : M R :=
  taskID <- add name ;;
  try_finally (result <- callable ;; ret result) (remove taskID).

End Handler.

Unset Implicit Arguments.

(** ** Sequences of calls *)

Inductive call :=
| Add (task : string)
| Remove (taskID : string).

Section Calls.
Variable uuid4 : nat -> string.

(** The handler after one call; a caller that catches what [remove] throws
    goes on with the handler as the throw left it. *)
Definition step (st : TaskHandler) (c : call) : TaskHandler :=
  match c with
  | Add task => snd (add uuid4 task st)
  | Remove taskID => snd (remove taskID st)
  end.

Definition run (calls : list call) (st : TaskHandler) : TaskHandler :=
  fold_left step calls st.
End Calls.

(** [remove(i1); remove(i2); ...], in this order. *)
Fixpoint removeAll (taskIDs : list string) : M unit :=
  match taskIDs with
  | [] => ret tt
  | taskID :: rest => remove taskID ;; removeAll rest
  end.

(** A generator that never repeats itself, to run the handler with. *)
Fixpoint ticks (n : nat) : string :=
  match n with
  | 0 => EmptyString
  | S k => String "+"%char (ticks k)
  end.

Definition uuid_of (n : nat) : string := ("uuid" ++ ticks n)%string.

(** ** The words of the specification *)

(** The list without its first record whose identifier is [taskID]. *)
Fixpoint excise (taskID : string) (l : list TaskRecord) : list TaskRecord :=
  match l with
  | [] => []
  | r :: rest => if (id r =? taskID)%string then rest else r :: excise taskID rest
  end.

(** What [remove] announces for the list it leaves. *)
Definition announcement (l : list TaskRecord) : string :=
  match l with
  | [] => "empty"
  | r :: _ => task r
  end.

(** Every identifier in the list is an earlier draw of the generator, and no
    two records share one. *)
Definition well_formed (uuid4 : nat -> string) (st : TaskHandler) : Prop :=
  NoDup (map id (_taskList st))
  /\ forall r, In r (_taskList st) ->
       exists k, k < uuidsDrawn st /\ id r = uuid4 k.

(** The last thing the signal emitted is what [remove] would announce for the
    list as it stands; before anything was emitted the list is empty. *)
Definition announced (st : TaskHandler) : Prop :=
  (_taskChanged st = [] /\ _taskList st = [])
  \/ exists earlier,
       _taskChanged st = earlier ++ [announcement (_taskList st)].

(** ** [PastCommitNode]: the branches shown on a commit

    The component reads [top_commit] of each branch and [commit] of the past
    commit, both strings; the declarations of the branch and commit objects
    are in another module, so the branch type and its field are taken as
    given. *)
Module PastCommitNode.
Section Branches.
Variable Branch : Type.
Variable top_commit : Branch -> string.

(** A string in a condition: false when empty. *)
Definition truthy (s : string) : bool := negb (s =? "")%string.

(** The body of [for (let i = 0; i < this.props.branches.length; i++)], run
    over the branches from index [i] on; [branches] is the array pushed to. *)
Fixpoint for_each (current_commit : string) (from_i : list Branch)
    (branches : list Branch) : list Branch :=
  match from_i with
  | [] => branches
  | branch :: rest =>
      if truthy (top_commit branch)
         && (top_commit branch =? current_commit)%string
      then for_each current_commit rest (branches ++ [branch])
      else for_each current_commit rest branches
  end.

Definition getBranchesForCommit (commit : string) (props_branches : list Branch)
  : list Branch :=
  let current_commit := commit in
  for_each current_commit props_branches [].

End Branches.
Arguments for_each {Branch} top_commit current_commit from_i branches.
Arguments getBranchesForCommit {Branch} top_commit commit props_branches.
End PastCommitNode.

(** ** Running the handler *)

Example remove_demo :
  remove "b" (mkHandler [mkTask "a" "x"; mkTask "b" "y"; mkTask "c" "z"] [] 3)
  = (Normal tt, mkHandler [mkTask "a" "x"; mkTask "c" "z"] ["x"] 3).
Proof. reflexivity. Qed.

(** The scenario of the specification: clone, fetch, then both released. *)
Example scenario :
  (clone <- add uuid_of "clone" ;;
   fetch <- add uuid_of "fetch" ;;
   remove fetch ;;
   remove clone) constructor
  = (Normal tt, mkHandler [] ["clone"; "clone"; "empty"] 2).
Proof. reflexivity. Qed.

(** ** What [remove] does to the list *)

Lemma walk_node taskID a : forall b v,
  walk taskID (mkNode b v a) = rev b ++ v :: excise taskID a.
Proof.
  induction a as [|w a IH]; intros b v; simp walk; cbn.
  - reflexivity.
  - destruct (id w =? taskID)%string.
    + unfold removeNode; cbn. rewrite <- app_assoc. reflexivity.
    + rewrite IH. cbn. rewrite <- app_assoc. reflexivity.
Qed.

Lemma remove_on_empty taskID st :
  _taskList st = [] -> remove taskID st = (Throw TypeError, st).
Proof.
  destruct st as [l e n]; simpl; intros ->. reflexivity.
Qed.

Lemma remove_on_nonempty taskID st :
  _taskList st <> [] ->
  remove taskID st
  = (Normal tt,
     mkHandler (excise taskID (_taskList st))
               (_taskChanged st ++ [announcement (excise taskID (_taskList st))])
               (uuidsDrawn st)).
Proof.
  destruct st as [[|r l] e n]; simpl; intros Hne; [congruence|].
  unfold remove, bind, get_taskList; simpl.
  destruct (id r =? taskID)%string; simpl.
  - destruct l; reflexivity.
  - rewrite walk_node. reflexivity.
Qed.

Lemma remove_normal_inv taskID st st' :
  remove taskID st = (Normal tt, st') ->
  _taskList st <> []
  /\ st' = mkHandler (excise taskID (_taskList st))
             (_taskChanged st ++ [announcement (excise taskID (_taskList st))])
             (uuidsDrawn st).
Proof.
  intros H. destruct (_taskList st) as [|r l] eqn:El.
  - rewrite remove_on_empty in H by assumption. discriminate.
  - assert (Hne : _taskList st <> []) by (rewrite El; discriminate).
    rewrite (remove_on_nonempty taskID st Hne), El in H.
    split; [discriminate | congruence].
Qed.

Lemma excise_first_match taskID l1 : forall r l2,
  id r = taskID -> (forall x, In x l1 -> id x <> taskID) ->
  excise taskID (l1 ++ r :: l2) = l1 ++ l2.
Proof.
  induction l1 as [|x l1 IH]; intros r l2 Hr Hl1; simpl.
  - rewrite (proj2 (String.eqb_eq _ _) Hr). reflexivity.
  - rewrite (proj2 (String.eqb_neq _ _) (Hl1 x (or_introl eq_refl))).
    rewrite IH; auto. intros y Hy. apply Hl1. right. exact Hy.
Qed.

Lemma excise_absent taskID l :
  (forall x, In x l -> id x <> taskID) -> excise taskID l = l.
Proof.
  induction l as [|x l IH]; intros Hl; simpl; [reflexivity|].
  rewrite (proj2 (String.eqb_neq _ _) (Hl x (or_introl eq_refl))).
  rewrite IH; auto. intros y Hy. apply Hl. right. exact Hy.
Qed.

Lemma present_split taskID l :
  (exists r, In r l /\ id r = taskID) ->
  exists l1 r l2,
    l = l1 ++ r :: l2 /\ id r = taskID /\ (forall x, In x l1 -> id x <> taskID).
Proof.
  induction l as [|x l IH]; intros [r [Hin Hid]]; [destruct Hin|].
  destruct (String.eqb_spec (id x) taskID) as [Hx|Hx].
  - exists [], x, l. repeat split; auto.
  - destruct Hin as [->|Hin]; [contradiction|].
    destruct IH as (l1 & r' & l2 & -> & Hr' & Hl1); [eauto|].
    exists (x :: l1), r', l2. repeat split; auto.
    intros y [<-|Hy]; auto.
Qed.

Lemma emitted_since_app st l e n :
  emitted_since st (mkHandler l (_taskChanged st ++ e) n) = e.
Proof.
  unfold emitted_since; simpl.
  induction (_taskChanged st); simpl; auto.
Qed.


Lemma present_first_match taskID l :
  In taskID (map id l) ->
  exists l1 r l2,
    l = l1 ++ r :: l2 /\ id r = taskID /\ (forall x, In x l1 -> id x <> taskID).
Proof.
  intros H. apply present_split. apply in_map_iff in H.
  destruct H as (r & Hid & Hin). eauto.
Qed.

Lemma app_cons_not_nil (l1 : list TaskRecord) r l2 : l1 ++ r :: l2 <> [].
Proof. destruct l1; discriminate. Qed.

(** ** [add] *)

Lemma add_eq (uuid4 : nat -> string) task st :
  add uuid4 task st
  = (Normal (uuid4 (uuidsDrawn st)),
     mkHandler (_taskList st ++ [mkTask (uuid4 (uuidsDrawn st)) task])
               (_taskChanged st ++ match _taskList st with
                                   | [] => [task]
                                   | _ :: _ => []
                                   end)
               (S (uuidsDrawn st))).
Proof.
  destruct st as [l e n]. unfold add, bind, _generateTaskID, get_taskList; simpl.
  unfold addLast, LinkedList.length. rewrite length_app; simpl.
  destruct l as [|r l]; simpl; [reflexivity|].
  replace (List.length l + 1) with (S (List.length l)) by lia. simpl.
  rewrite app_nil_r. reflexivity.
Qed.

(** C2: [add(task)] returns the identifier it drew and appends the record
    [{id, task}] at the tail; it emits exactly one notification, the added
    label, when the list was empty before the call, and none otherwise. *)
Theorem add_appends_and_announces_first (uuid4 : nat -> string) task st :
  exists st',
    add uuid4 task st = (Normal (uuid4 (uuidsDrawn st)), st')
    /\ _taskList st' = _taskList st ++ [mkTask (uuid4 (uuidsDrawn st)) task]
    /\ _taskChanged st'
       = _taskChanged st ++ match _taskList st with
                            | [] => [task]
                            | _ :: _ => []
                            end.
Proof.
  eexists. split; [apply add_eq|]. split; reflexivity.
Qed.

(** ** [remove] *)

(** C1: [remove(id)] with [id] in the list emits exactly one notification:
    ['empty'] when the removal leaves the list empty, the label of the record
    then at the head otherwise, whichever record was removed. *)
Theorem remove_present_announces taskID st :
  In taskID (map id (_taskList st)) ->
  exists st',
    remove taskID st = (Normal tt, st')
    /\ _taskList st' = excise taskID (_taskList st)
    /\ List.length (_taskList st) = S (List.length (_taskList st'))
    /\ _taskChanged st'
       = _taskChanged st ++ [match _taskList st' with
                             | [] => "empty"
                             | r :: _ => task r
                             end].
Proof.
  intros Hin.
  destruct (present_first_match _ _ Hin) as (l1 & r & l2 & El & Hr & Hl1).
  assert (Hne : _taskList st <> []) by (rewrite El; apply app_cons_not_nil).
  eexists. split; [apply remove_on_nonempty; exact Hne|]. simpl.
  repeat split.
  rewrite El, excise_first_match by assumption.
  rewrite !length_app. simpl. lia.
Qed.

Lemma remove_present_announces_witness :
  In "u2" (map id [mkTask "u1" "clone"; mkTask "u2" "fetch"])
  /\ exists st',
       remove "u2" (mkHandler [mkTask "u1" "clone"; mkTask "u2" "fetch"] ["clone"] 2)
       = (Normal tt, st')
       /\ _taskList st' = excise "u2" [mkTask "u1" "clone"; mkTask "u2" "fetch"]
       /\ 2 = S (List.length (_taskList st'))
       /\ _taskChanged st'
          = ["clone"] ++ [match _taskList st' with
                          | [] => "empty"
                          | r :: _ => task r
                          end].
Proof.
  split.
  - simpl. right. left. reflexivity.
  - apply (remove_present_announces "u2"
             (mkHandler [mkTask "u1" "clone"; mkTask "u2" "fetch"] ["clone"] 2)).
    simpl. right. left. reflexivity.
Defined.

(** C6: when the list is [l1 ++ r :: l2] with [r] the first record whose
    identifier is [id], [remove(id)] leaves [l1 ++ l2]: that record alone is
    taken out and the others keep their order. *)
Theorem remove_excises_first_match taskID st l1 r l2 :
  _taskList st = l1 ++ r :: l2 ->
  id r = taskID ->
  (forall x, In x l1 -> id x <> taskID) ->
  exists st', remove taskID st = (Normal tt, st') /\ _taskList st' = l1 ++ l2.
Proof.
  intros El Hr Hl1.
  assert (Hne : _taskList st <> []) by (rewrite El; apply app_cons_not_nil).
  eexists. split; [apply remove_on_nonempty; exact Hne|]. simpl.
  rewrite El. apply excise_first_match; assumption.
Qed.

Lemma remove_excises_first_match_witness :
  (forall x, In x [mkTask "u1" "clone"] -> id x <> "u2")
  /\ exists st',
       remove "u2"
         (mkHandler [mkTask "u1" "clone"; mkTask "u2" "fetch"; mkTask "u2" "push"] [] 3)
       = (Normal tt, st')
       /\ _taskList st' = [mkTask "u1" "clone"] ++ [mkTask "u2" "push"].
Proof.
  assert (H : forall x, In x [mkTask "u1" "clone"] -> id x <> "u2").
  { intros x [<-|[]]. simpl. discriminate. }
  split; [exact H|].
  apply (remove_excises_first_match "u2"
           (mkHandler [mkTask "u1" "clone"; mkTask "u2" "fetch"; mkTask "u2" "push"] [] 3)
           [mkTask "u1" "clone"] (mkTask "u2" "fetch") [mkTask "u2" "push"]);
    [reflexivity | reflexivity | exact H].
Defined.

(** C9: on a non-empty list that holds no record with identifier [id],
    [remove(id)] leaves the list as it is and still emits exactly one
    notification, the label of the head. *)
Theorem remove_absent_reannounces_head taskID st r rest :
  _taskList st = r :: rest ->
  ~ In taskID (map id (_taskList st)) ->
  exists st',
    remove taskID st = (Normal tt, st')
    /\ _taskList st' = _taskList st
    /\ _taskChanged st' = _taskChanged st ++ [task r].
Proof.
  intros El Habs.
  assert (Hne : _taskList st <> []) by (rewrite El; discriminate).
  assert (Hex : excise taskID (_taskList st) = _taskList st).
  { apply excise_absent. intros x Hx E. apply Habs.
    apply in_map_iff. exists x. auto. }
  eexists. split; [apply remove_on_nonempty; exact Hne|]. simpl.
  rewrite Hex. split; [reflexivity|]. rewrite El. reflexivity.
Qed.

Lemma remove_absent_reannounces_head_witness :
  ~ In "u9" (map id [mkTask "u1" "clone"; mkTask "u2" "fetch"])
  /\ exists st',
       remove "u9" (mkHandler [mkTask "u1" "clone"; mkTask "u2" "fetch"] ["clone"] 2)
       = (Normal tt, st')
       /\ _taskList st' = [mkTask "u1" "clone"; mkTask "u2" "fetch"]
       /\ _taskChanged st' = ["clone"] ++ ["clone"].
Proof.
  assert (H : ~ In "u9" (map id [mkTask "u1" "clone"; mkTask "u2" "fetch"])).
  { simpl. intros [E|[E|[]]]; discriminate. }
  split; [exact H|].
  apply (remove_absent_reannounces_head "u9"
           (mkHandler [mkTask "u1" "clone"; mkTask "u2" "fetch"] ["clone"] 2)
           (mkTask "u1" "clone") [mkTask "u2" "fetch"]);
    [reflexivity | exact H].
Defined.

(** C4: [remove] throws on an empty list.  With nothing pending the first
    node is [null], the guarded test fails and the loop condition reads
    [next] of [null]: a [TypeError], before anything is emitted.  A task
    released twice reaches it. *)
Theorem remove_throws_on_empty_list :
  (forall taskID notified n,
     remove taskID (mkHandler [] notified n)
     = (Throw TypeError, mkHandler [] notified n))
  /\ (fetch <- add uuid_of "fetch" ;; remove fetch ;; remove fetch) constructor
     = (Throw TypeError, mkHandler [] ["fetch"; "empty"] 1).
Proof.
  split; [intros; apply remove_on_empty|]; reflexivity.
Qed.

(** C10: the notification for an emptied list is the string ['empty'], and
    so is the notification of a [remove] that leaves a list whose head is
    labelled ['empty']: the two emit the same thing. *)
Theorem empty_sentinel_is_a_label taskID1 st1 st1' r rest taskID2 st2 st2' :
  remove taskID1 st1 = (Normal tt, st1') ->
  _taskList st1' = r :: rest ->
  task r = "empty" ->
  remove taskID2 st2 = (Normal tt, st2') ->
  _taskList st2' = [] ->
  emitted_since st2 st2' = ["empty"]
  /\ emitted_since st1 st1' = emitted_since st2 st2'.
Proof.
  intros H1 El1 Hr H2 El2.
  apply remove_normal_inv in H1. destruct H1 as [_ ->].
  apply remove_normal_inv in H2. destruct H2 as [_ ->].
  simpl in *. rewrite !emitted_since_app, El1, El2. simpl.
  rewrite Hr. split; reflexivity.
Qed.

Lemma empty_sentinel_is_a_label_witness :
  let st1 := mkHandler [mkTask "u1" "fetch"; mkTask "u2" "empty"] ["fetch"] 2 in
  let st1' := mkHandler [mkTask "u2" "empty"] ["fetch"; "empty"] 2 in
  let st2 := mkHandler [mkTask "u1" "fetch"] ["fetch"] 1 in
  let st2' := mkHandler [] ["fetch"; "empty"] 1 in
  remove "u1" st1 = (Normal tt, st1')
  /\ remove "u1" st2 = (Normal tt, st2')
  /\ emitted_since st2 st2' = ["empty"]
  /\ emitted_since st1 st1' = emitted_since st2 st2'.
Proof.
  intros st1 st1' st2 st2'.
  split; [reflexivity|]. split; [reflexivity|].
  apply (empty_sentinel_is_a_label "u1" st1 st1' (mkTask "u2" "empty") []
           "u1" st2 st2'); reflexivity.
Defined.

(** ** Identifiers stay distinct *)

Lemma excise_incl taskID l x : In x (excise taskID l) -> In x l.
Proof.
  induction l as [|r l IH]; simpl; [auto|].
  destruct (id r =? taskID)%string; simpl; intuition.
Qed.

Lemma excise_NoDup taskID l :
  NoDup (map id l) -> NoDup (map id (excise taskID l)).
Proof.
  induction l as [|r l IH]; simpl; intros H; [exact H|].
  inversion H as [|? ? Hnotin Hl]; subst.
  destruct (id r =? taskID)%string; simpl; [exact Hl|].
  constructor; [|auto].
  intros Hin. apply Hnotin. apply in_map_iff in Hin.
  destruct Hin as (x & Hx & Hxin). apply in_map_iff.
  exists x. split; [exact Hx|]. eapply excise_incl; eauto.
Qed.

Lemma excise_length taskID l :
  List.length l <= S (List.length (excise taskID l)).
Proof.
  induction l as [|r l IH]; simpl; [lia|].
  destruct (id r =? taskID)%string; simpl; lia.
Qed.

Lemma NoDup_snoc (l : list string) x : NoDup l -> ~ In x l -> NoDup (l ++ [x]).
Proof.
  induction l as [|y l IH]; simpl; intros Hl Hx.
  - constructor; [intros []|constructor].
  - inversion Hl; subst. constructor.
    + rewrite in_app_iff. simpl. intuition.
    + apply IH; intuition.
Qed.

Section Distinct.
Variable uuid4 : nat -> string.
Hypothesis uuid4_unique : forall m n, uuid4 m = uuid4 n -> m = n.

Lemma add_well_formed task st :
  well_formed uuid4 st -> well_formed uuid4 (snd (add uuid4 task st)).
Proof.
  intros [Hnd Hdrawn]. rewrite add_eq. unfold well_formed; simpl. split.
  - rewrite map_app. simpl. apply NoDup_snoc; [exact Hnd|].
    intros Hin. apply in_map_iff in Hin. destruct Hin as (r & Hr & Hrin).
    destruct (Hdrawn r Hrin) as (k & Hk & Ek).
    rewrite Ek in Hr. apply uuid4_unique in Hr. lia.
  - intros r Hin. apply in_app_iff in Hin. destruct Hin as [Hin|[<-|[]]].
    + destruct (Hdrawn r Hin) as (k & Hk & Ek). exists k. split; [lia|exact Ek].
    + exists (uuidsDrawn st). split; [lia|reflexivity].
Qed.

Lemma remove_well_formed taskID st :
  well_formed uuid4 st -> well_formed uuid4 (snd (remove taskID st)).
Proof.
  intros Hwf. destruct (_taskList st) as [|r l] eqn:El.
  - rewrite remove_on_empty by exact El. exact Hwf.
  - rewrite remove_on_nonempty by (rewrite El; discriminate).
    destruct Hwf as [Hnd Hdrawn]. unfold well_formed; simpl. split.
    + apply excise_NoDup. exact Hnd.
    + intros x Hx. apply Hdrawn. eapply excise_incl; eauto.
Qed.

Lemma run_well_formed calls : forall st,
  well_formed uuid4 st -> well_formed uuid4 (run uuid4 calls st).
Proof.
  induction calls as [|c calls IH]; intros st Hst; simpl; [exact Hst|].
  apply IH. destruct c; simpl.
  - apply add_well_formed; exact Hst.
  - apply remove_well_formed; exact Hst.
Qed.

Lemma constructor_well_formed : well_formed uuid4 constructor.
Proof.
  split; simpl; [constructor | intros r []].
Qed.
End Distinct.

Lemma ticks_inj m : forall n, ticks m = ticks n -> m = n.
Proof.
  induction m as [|m IH]; intros [|n] H; simpl in H;
    try discriminate; [reflexivity|].
  injection H as H. f_equal. apply IH. exact H.
Qed.

Lemma uuid_of_unique m n : uuid_of m = uuid_of n -> m = n.
Proof.
  unfold uuid_of; simpl. intros H. injection H as H. apply ticks_inj. exact H.
Qed.

(** C5: when the generator never returns the same identifier twice, the
    identifiers in the list are pairwise distinct after every prefix of every
    sequence of [add] and [remove] calls made on a new handler (labels may
    repeat). *)
Theorem ids_pairwise_distinct (uuid4 : nat -> string) calls k :
  (forall m n, uuid4 m = uuid4 n -> m = n) ->
  NoDup (map id (_taskList (run uuid4 (firstn k calls) constructor))).
Proof.
  intros Huniq.
  apply (run_well_formed uuid4 Huniq (firstn k calls) constructor).
  apply constructor_well_formed.
Qed.

Lemma ids_pairwise_distinct_witness :
  (forall m n, uuid_of m = uuid_of n -> m = n)
  /\ map id (_taskList (run uuid_of
                          (firstn 3 [Add "fetch"; Add "fetch"; Remove "uuid"; Add "push"])
                          constructor))
     = ["uuid+"]
  /\ NoDup (map id (_taskList (run uuid_of
                          (firstn 3 [Add "fetch"; Add "fetch"; Remove "uuid"; Add "push"])
                          constructor))).
Proof.
  split; [exact uuid_of_unique|]. split; [reflexivity|].
  apply (ids_pairwise_distinct uuid_of
           [Add "fetch"; Add "fetch"; Remove "uuid"; Add "push"] 3 uuid_of_unique).
Defined.

(** ** Draining the list *)

Lemma removeAll_cons taskID rest st :
  removeAll (taskID :: rest) st
  = match remove taskID st with
    | (Normal _, st1) => removeAll rest st1
    | (Throw e, st1) => (Throw e, st1)
    end.
Proof. reflexivity. Qed.

Lemma removeAll_length taskIDs : forall st st',
  removeAll taskIDs st = (Normal tt, st') ->
  List.length (_taskList st)
  <= List.length (_taskList st') + List.length taskIDs.
Proof.
  induction taskIDs as [|i rest IH]; intros st st' H.
  - injection H as <-. simpl. lia.
  - rewrite removeAll_cons in H.
    destruct (remove i st) as [[[]|e] st1] eqn:Hi; [|discriminate].
    apply remove_normal_inv in Hi. destruct Hi as [_ ->].
    apply IH in H. simpl in *.
    pose proof (excise_length i (_taskList st)). lia.
Qed.

(** C7, as the code has it: when none of the [N >= 1] records is labelled
    ['empty'], [N] calls of [remove] that empty the list emit [N]
    notifications, of which the last one, and no other, is ['empty']. *)
Theorem drain_announces_empty_last taskIDs : forall st st',
  taskIDs <> [] ->
  List.length taskIDs = List.length (_taskList st) ->
  (forall r, In r (_taskList st) -> task r <> "empty") ->
  removeAll taskIDs st = (Normal tt, st') ->
  _taskList st' = [] ->
  exists heads,
    _taskChanged st' = _taskChanged st ++ heads ++ ["empty"]
    /\ S (List.length heads) = List.length taskIDs
    /\ ~ In "empty" heads.
Proof.
  induction taskIDs as [|i rest IH]; intros st st' Hne Hlen Hlab H Hend;
    [congruence|].
  rewrite removeAll_cons in H.
  destruct (remove i st) as [[[]|e] st1] eqn:Hi; [|discriminate].
  apply remove_normal_inv in Hi. destruct Hi as [_ ->].
  destruct rest as [|j rest].
  - injection H as <-. simpl in Hend. exists []. simpl.
    rewrite Hend. auto.
  - pose proof (removeAll_length _ _ _ H) as Hlow.
    pose proof (excise_length i (_taskList st)) as Hex.
    rewrite Hend in Hlow. simpl in Hlow, Hlen.
    pose proof (fun a b c => IH _ _ a b c H Hend) as IH'. simpl in IH'.
    destruct IH' as (heads & Hlog & Hcount & Hnone);
      [discriminate | lia
      | intros r Hr; apply Hlab; eapply excise_incl; eauto |].
    simpl in Hlog.
    destruct (excise i (_taskList st)) as [|r l] eqn:El; [simpl in Hex; lia|].
    exists (task r :: heads). simpl. rewrite Hlog, <- app_assoc. simpl.
    repeat split; [simpl in Hcount; lia|].
    intros [E|Hin]; [|contradiction].
    apply (Hlab r); [|exact E].
    apply (excise_incl i). rewrite El. left. reflexivity.
Qed.

Lemma drain_announces_empty_last_witness :
  let st := mkHandler [mkTask "u1" "clone"; mkTask "u2" "fetch"; mkTask "u3" "push"]
                      ["clone"] 3 in
  let st' := mkHandler [] ["clone"; "clone"; "push"; "empty"] 3 in
  (forall r, In r (_taskList st) -> task r <> "empty")
  /\ removeAll ["u2"; "u1"; "u3"] st = (Normal tt, st')
  /\ exists heads,
       _taskChanged st' = _taskChanged st ++ heads ++ ["empty"]
       /\ S (List.length heads) = 3
       /\ ~ In "empty" heads.
Proof.
  intros st st'.
  assert (H : forall r, In r (_taskList st) -> task r <> "empty").
  { simpl. intros r [<-|[<-|[<-|[]]]]; simpl; discriminate. }
  split; [exact H|]. split; [reflexivity|].
  apply (drain_announces_empty_last ["u2"; "u1"; "u3"] st st');
    [discriminate | reflexivity | exact H | reflexivity | reflexivity].
Defined.

(** C7 does not hold for every label: with a pending task labelled
    ['empty'] the drain emits ['empty'] twice:
    once by the call that leaves that task at the head, once by the call that
    removes it. *)
Lemma drain_with_label_empty :
  removeAll ["u1"; "u2"]
    (mkHandler [mkTask "u1" "fetch"; mkTask "u2" "empty"] [] 2)
  = (Normal tt, mkHandler [] ["empty"; "empty"] 2)
  /\ count_occ string_dec ["empty"; "empty"] "empty" <> 1.
Proof.
  split; [reflexivity | discriminate].
Qed.

(** ** [execute] *)

Lemma execute_eq {R} (uuid4 : nat -> string) name (callable : M R) st :
  execute uuid4 name callable st
  = let (outcome, st2) := callable (snd (add uuid4 name st)) in
    match remove (uuid4 (uuidsDrawn st)) st2 with
    | (Normal _, st3) => (outcome, st3)
    | (Throw e, st3) => (Throw e, st3)
    end.
Proof.
  unfold execute, bind at 1. rewrite add_eq. simpl.
  unfold try_finally, bind.
  destruct (callable _) as [[r|e] st2]; reflexivity.
Qed.

(** When the list is not empty as the operation settles,
    [execute(name, callable)] calls [remove] once, with the identifier
    [add(name)] returned, whether the operation returned or failed; the
    handler [execute] leaves is the one that single [remove] leaves, one
    notification later, and [execute] settles as the operation did. *)
Theorem execute_removes_once_and_relays {R} (uuid4 : nat -> string) name
    (callable : M R) st taskID st1 outcome st2 :
  add uuid4 name st = (Normal taskID, st1) ->
  callable st1 = (outcome, st2) ->
  _taskList st2 <> [] ->
  exists st3,
    remove taskID st2 = (Normal tt, st3)
    /\ execute uuid4 name callable st = (outcome, st3)
    /\ exists notification, _taskChanged st3 = _taskChanged st2 ++ [notification].
Proof.
  intros Hadd Hop Hne. rewrite add_eq in Hadd. injection Hadd as <- <-.
  rewrite execute_eq, add_eq. simpl. rewrite Hop.
  rewrite (remove_on_nonempty _ _ Hne).
  eexists. split; [reflexivity|]. split; [reflexivity|].
  simpl. eexists. reflexivity.
Qed.

Lemma execute_removes_once_and_relays_witness :
  let st1 := mkHandler [mkTask "uuid" "fetch"] ["fetch"] 1 in
  let failure := Throw (Rejected "offline") : completion nat in
  add uuid_of "fetch" constructor = (Normal "uuid", st1)
  /\ _taskList st1 <> []
  /\ exists st3,
       remove "uuid" st1 = (Normal tt, st3)
       /\ execute uuid_of "fetch" (throw (Rejected "offline")) constructor
          = (failure, st3)
       /\ exists notification, _taskChanged st3 = _taskChanged st1 ++ [notification].
Proof.
  intros st1 failure.
  split; [reflexivity|]. split; [discriminate|].
  apply (execute_removes_once_and_relays uuid_of "fetch"
           (throw (Rejected "offline")) constructor "uuid" st1 failure st1);
    [reflexivity | reflexivity | discriminate].
Defined.

(** Where the list has been emptied by the time the operation settles, the
    [remove] of the [finally] block throws and its [TypeError] is what
    [execute] settles with. *)
Example execute_on_emptied_list :
  execute uuid_of "fetch" (remove "uuid") constructor
  = (Throw TypeError, mkHandler [] ["fetch"; "empty"] 1).
Proof. reflexivity. Qed.


(** C8, as the code has it: when the identifier [add] draws is not already
    in the list and the list, when the operation settles, is the one
    [execute]'s own [add] left, [execute] settles as the operation did and
    leaves the list it found: the same records in the same order. *)
Theorem execute_restores_list {R} (uuid4 : nat -> string) name
    (callable : M R) st outcome st2 :
  ~ In (uuid4 (uuidsDrawn st)) (map id (_taskList st)) ->
  callable (snd (add uuid4 name st)) = (outcome, st2) ->
  _taskList st2 = _taskList (snd (add uuid4 name st)) ->
  exists st3,
    execute uuid4 name callable st = (outcome, st3)
    /\ _taskList st3 = _taskList st.
Proof.
  intros Hfresh Hop Hsame. rewrite execute_eq, Hop.
  rewrite add_eq in Hsame. simpl in Hsame.
  rewrite remove_on_nonempty by (rewrite Hsame; apply app_cons_not_nil).
  eexists. split; [reflexivity|]. simpl. rewrite Hsame.
  rewrite excise_first_match; [apply app_nil_r | reflexivity |].
  intros x Hx E. apply Hfresh. apply in_map_iff. exists x. auto.
Qed.

Lemma execute_restores_list_witness :
  let st := mkHandler [mkTask "uuid" "clone"] ["clone"] 1 in
  let st2 := mkHandler [mkTask "uuid" "clone"; mkTask "uuid+" "fetch"] ["clone"] 2 in
  let failure := Throw (Rejected "offline") : completion nat in
  ~ In (uuid_of 1) (map id (_taskList st))
  /\ throw (Rejected "offline") (snd (add uuid_of "fetch" st)) = (failure, st2)
  /\ exists st3,
       execute uuid_of "fetch" (throw (Rejected "offline")) st = (failure, st3)
       /\ _taskList st3 = [mkTask "uuid" "clone"].
Proof.
  intros st st2 failure.
  assert (H : ~ In (uuid_of 1) (map id (_taskList st))).
  { simpl. intros [E|[]]. discriminate. }
  split; [exact H|]. split; [reflexivity|].
  apply (execute_restores_list uuid_of "fetch" (throw (Rejected "offline"))
           st failure st2); [exact H | reflexivity | reflexivity].
Defined.

(** C8 does not hold for every operation: one that registers a task of its
    own, still pending when it settles, makes [execute] leave one record
    where there was none. *)
Lemma execute_with_overlapping_task :
  execute uuid_of "fetch" (add uuid_of "push") constructor
  = (Normal "uuid+", mkHandler [mkTask "uuid+" "push"] ["fetch"; "push"] 2)
  /\ List.length (_taskList constructor)
     <> List.length [mkTask "uuid+" "push"].
Proof.
  split; [reflexivity | discriminate].
Qed.

(** ** More on [remove] *)

(** X1: [remove] throws only on an empty list.  There it throws a
    [TypeError] and leaves the handler as it was, nothing emitted; on a list
    with a record it returns, whatever the identifier. *)
Theorem remove_throws_only_on_empty_list taskID st :
  (_taskList st = [] /\ remove taskID st = (Throw TypeError, st))
  \/ (_taskList st <> [] /\ exists st', remove taskID st = (Normal tt, st')).
Proof.
  destruct (_taskList st) as [|r l] eqn:El.
  - left. split; [reflexivity|]. apply remove_on_empty. exact El.
  - right. split; [discriminate|]. eexists.
    apply remove_on_nonempty. rewrite El. discriminate.
Qed.

Lemma excise_ids taskID l :
  NoDup (map id l) ->
  forall j, In j (map id (excise taskID l)) <-> In j (map id l) /\ j <> taskID.
Proof.
  induction l as [|r l IH]; simpl; intros Hnd j; [tauto|].
  inversion Hnd as [|? ? Hnotin Hl]; subst.
  destruct (String.eqb_spec (id r) taskID) as [E|E].
  - subst taskID. split.
    + intros Hj. split; [right; exact Hj|]. intros ->. contradiction.
    + intros [[Hj|Hj] Hne]; [congruence | exact Hj].
  - simpl. rewrite (IH Hl j). split.
    + intros [Hj|[Hj Hne]]; [split; [left; exact Hj | congruence] | tauto].
    + intros [[Hj|Hj] Hne]; tauto.
Qed.

(** X2: when the identifiers in the list are pairwise distinct, [remove(id)]
    leaves no record with that identifier, and the identifiers left are the
    others, all of them. *)
Theorem remove_forgets_id taskID st :
  NoDup (map id (_taskList st)) ->
  _taskList st <> [] ->
  exists st',
    remove taskID st = (Normal tt, st')
    /\ forall j, In j (map id (_taskList st'))
                 <-> In j (map id (_taskList st)) /\ j <> taskID.
Proof.
  intros Hnd Hne. eexists. split; [apply remove_on_nonempty; exact Hne|].
  simpl. apply excise_ids. exact Hnd.
Qed.

Lemma remove_forgets_id_witness :
  let st := mkHandler [mkTask "u1" "clone"; mkTask "u2" "fetch"] ["clone"] 2 in
  NoDup (map id (_taskList st))
  /\ exists st',
       remove "u1" st = (Normal tt, st')
       /\ forall j, In j (map id (_taskList st'))
                    <-> In j (map id (_taskList st)) /\ j <> "u1".
Proof.
  intros st.
  assert (H : NoDup (map id (_taskList st))).
  { simpl. constructor.
    - simpl. intros [E|[]]. discriminate.
    - constructor; [intros []|constructor]. }
  split; [exact H|].
  apply (remove_forgets_id "u1" st H). discriminate.
Defined.

(** ** The notifications of a sequence of calls *)

Lemma announcement_snoc r l x : announcement ((r :: l) ++ [x]) = task r.
Proof. reflexivity. Qed.

Lemma step_announced (uuid4 : nat -> string) st c :
  announced st -> announced (step uuid4 st c).
Proof.
  intros Hst. destruct c as [task|taskID]; simpl.
  - rewrite add_eq. simpl. destruct (_taskList st) as [|r l] eqn:El.
    + right. exists (_taskChanged st). reflexivity.
    + destruct Hst as [[_ Hl]|[earlier He]]; [rewrite El in Hl; discriminate|].
      right. exists earlier. simpl. rewrite app_nil_r, He, El. reflexivity.
  - destruct (_taskList st) as [|r l] eqn:El.
    + rewrite remove_on_empty by exact El. exact Hst.
    + rewrite remove_on_nonempty by (rewrite El; discriminate).
      right. simpl. eexists. reflexivity.
Qed.

Lemma run_announced (uuid4 : nat -> string) calls : forall st,
  announced st -> announced (run uuid4 calls st).
Proof.
  induction calls as [|c calls IH]; intros st Hst; simpl; [exact Hst|].
  apply IH. apply step_announced. exact Hst.
Qed.

(** X3: after any sequence of [add] and [remove] calls on a new handler, the
    last notification emitted is the label of the record at the head of the
    list, or ['empty'] when the list is empty; if nothing was emitted yet the
    list is empty. *)
Theorem last_notification_is_the_head (uuid4 : nat -> string) calls :
  let st := run uuid4 calls constructor in
  (_taskChanged st = [] /\ _taskList st = [])
  \/ exists earlier,
       _taskChanged st
       = earlier ++ [match _taskList st with
                     | [] => "empty"
                     | r :: _ => task r
                     end].
Proof.
  apply (run_announced uuid4 calls constructor).
  left. split; reflexivity.
Qed.

Lemma step_keeps_head (uuid4 : nat -> string) st c r rest :
  _taskList st = r :: rest ->
  c <> Remove (id r) ->
  exists rest' heads,
    _taskList (step uuid4 st c) = r :: rest'
    /\ _taskChanged (step uuid4 st c) = _taskChanged st ++ heads
    /\ Forall (eq (task r)) heads.
Proof.
  intros El Hc. destruct c as [task|taskID]; simpl.
  - rewrite add_eq. simpl. rewrite El. simpl.
    eexists. exists []. repeat split. constructor.
  - rewrite remove_on_nonempty by (rewrite El; discriminate).
    simpl. rewrite El. simpl.
    destruct (String.eqb_spec (id r) taskID) as [E|E]; [congruence|].
    eexists. exists [task r]. repeat split. constructor; constructor.
Qed.

(** X4: the record at the head stays at the head through every sequence of
    calls that does not [remove] its identifier, and every notification
    emitted meanwhile is its label. *)
Theorem head_stays_until_removed (uuid4 : nat -> string) calls : forall st r rest,
  _taskList st = r :: rest ->
  ~ In (Remove (id r)) calls ->
  exists rest' heads,
    _taskList (run uuid4 calls st) = r :: rest'
    /\ _taskChanged (run uuid4 calls st) = _taskChanged st ++ heads
    /\ Forall (eq (task r)) heads.
Proof.
  induction calls as [|c calls IH]; intros st r rest El Hnot; simpl.
  - exists rest, []. rewrite app_nil_r. repeat split; [exact El | constructor].
  - destruct (step_keeps_head uuid4 st c r rest El) as (rest1 & h1 & El1 & He1 & Hh1).
    { intros ->. apply Hnot. left. reflexivity. }
    destruct (IH (step uuid4 st c) r rest1 El1) as (rest2 & h2 & El2 & He2 & Hh2).
    { intros Hin. apply Hnot. right. exact Hin. }
    exists rest2, (h1 ++ h2). split; [exact El2|]. split.
    + rewrite He2, He1, app_assoc. reflexivity.
    + apply Forall_app. split; assumption.
Qed.

Lemma head_stays_until_removed_witness :
  let st := mkHandler [mkTask "u1" "clone"; mkTask "u2" "fetch"] ["clone"] 2 in
  let calls := [Add "push"; Remove "u2"; Remove "u9"; Remove "uuid++"] in
  ~ In (Remove "u1") calls
  /\ run uuid_of calls st
     = mkHandler [mkTask "u1" "clone"] ["clone"; "clone"; "clone"; "clone"] 3
  /\ exists rest' heads,
       _taskList (run uuid_of calls st) = mkTask "u1" "clone" :: rest'
       /\ _taskChanged (run uuid_of calls st) = _taskChanged st ++ heads
       /\ Forall (eq "clone") heads.
Proof.
  intros st calls.
  assert (H : ~ In (Remove "u1") calls).
  { simpl. intros [E|[E|[E|[E|[]]]]]; discriminate. }
  split; [exact H|]. split; [reflexivity|].
  apply (head_stays_until_removed uuid_of calls st (mkTask "u1" "clone")
           [mkTask "u2" "fetch"]); [reflexivity | exact H].
Defined.

Lemma step_emits_at_most_one (uuid4 : nat -> string) st c :
  exists more,
    _taskChanged (step uuid4 st c) = _taskChanged st ++ more
    /\ List.length more <= 1.
Proof.
  destruct c as [task|taskID]; simpl.
  - rewrite add_eq. simpl. eexists. split; [reflexivity|].
    destruct (_taskList st); simpl; lia.
  - destruct (_taskList st) as [|r l] eqn:El.
    + rewrite remove_on_empty by exact El. exists []. rewrite app_nil_r.
      split; [reflexivity | simpl; lia].
    + rewrite remove_on_nonempty by (rewrite El; discriminate).
      simpl. eexists. split; [reflexivity | simpl; lia].
Qed.

(** X5: a sequence of [add] and [remove] calls only adds to what the signal
    has emitted, and by no more than one notification per call. *)
Theorem at_most_one_notification_per_call (uuid4 : nat -> string) calls : forall st,
  exists more,
    _taskChanged (run uuid4 calls st) = _taskChanged st ++ more
    /\ List.length more <= List.length calls.
Proof.
  induction calls as [|c calls IH]; intros st; simpl.
  - exists []. rewrite app_nil_r. split; [reflexivity | simpl; lia].
  - destruct (step_emits_at_most_one uuid4 st c) as (m1 & He1 & Hl1).
    destruct (IH (step uuid4 st c)) as (m2 & He2 & Hl2).
    exists (m1 ++ m2). split.
    + rewrite He2, He1, app_assoc. reflexivity.
    + rewrite length_app. lia.
Qed.

(** ** Releasing everything *)

Lemma removeAll_drains taskIDs : forall st,
  NoDup taskIDs ->
  NoDup (map id (_taskList st)) ->
  (forall j, In j taskIDs <-> In j (map id (_taskList st))) ->
  exists st',
    removeAll taskIDs st = (Normal tt, st')
    /\ _taskList st' = []
    /\ List.length (_taskChanged st')
       = List.length (_taskChanged st) + List.length taskIDs.
Proof.
  induction taskIDs as [|i rest IH]; intros st Hids Hnd Hsame.
  - exists st. split; [reflexivity|]. split; [|simpl; lia].
    destruct (_taskList st) as [|r l]; [reflexivity|].
    destruct (proj2 (Hsame (id r))); simpl; auto.
  - inversion Hids as [|? ? Hnotin Hrest]; subst.
    assert (Hne : _taskList st <> []).
    { intros El. rewrite El in Hsame.
      apply (proj1 (Hsame i)). left. reflexivity. }
    rewrite removeAll_cons, (remove_on_nonempty i st Hne).
    edestruct IH as (st' & Hrun & Hend & Hcount); [exact Hrest | | | ].
    3: { exists st'. split; [exact Hrun|]. split; [exact Hend|].
         rewrite Hcount. simpl. rewrite length_app. simpl. lia. }
    + simpl. apply excise_NoDup. exact Hnd.
    + simpl. intros j. rewrite (excise_ids i _ Hnd j), <- (Hsame j). simpl.
      split.
      * intros Hj. split; [right; exact Hj|]. intros ->. contradiction.
      * intros [[Hj|Hj] Hne']; [congruence | exact Hj].
Qed.

(** X6: when the identifiers in the list are pairwise distinct, calling
    [remove] once for each of them, in any order, never throws, empties the
    list and emits one notification per call. *)
Theorem release_all_in_any_order taskIDs st :
  NoDup (map id (_taskList st)) ->
  Permutation taskIDs (map id (_taskList st)) ->
  exists st',
    removeAll taskIDs st = (Normal tt, st')
    /\ _taskList st' = []
    /\ List.length (_taskChanged st')
       = List.length (_taskChanged st) + List.length taskIDs.
Proof.
  intros Hnd Hperm. apply removeAll_drains.
  - apply (Permutation_NoDup (Permutation_sym Hperm)). exact Hnd.
  - exact Hnd.
  - intros j. split.
    + apply Permutation_in. exact Hperm.
    + apply Permutation_in. apply Permutation_sym. exact Hperm.
Qed.

Lemma release_all_in_any_order_witness :
  let st := mkHandler [mkTask "u1" "clone"; mkTask "u2" "fetch"; mkTask "u3" "push"]
                      ["clone"] 3 in
  NoDup (map id (_taskList st))
  /\ Permutation ["u3"; "u1"; "u2"] (map id (_taskList st))
  /\ exists st',
       removeAll ["u3"; "u1"; "u2"] st = (Normal tt, st')
       /\ _taskList st' = []
       /\ List.length (_taskChanged st') = 1 + 3.
Proof.
  intros st.
  assert (Hnd : NoDup (map id (_taskList st))).
  { simpl. repeat constructor; simpl.
    - intros [E|[E|[]]]; discriminate.
    - intros [E|[]]; discriminate.
    - intros []. }
  assert (Hp : Permutation ["u3"; "u1"; "u2"] (map id (_taskList st))).
  { simpl. apply Permutation_sym.
    apply (Permutation_cons_app ["u3"] ["u2"] "u1"). simpl.
    apply (Permutation_cons_app ["u3"] [] "u2"). simpl.
    apply Permutation_refl. }
  split; [exact Hnd|]. split; [exact Hp|].
  apply (release_all_in_any_order ["u3"; "u1"; "u2"] st Hnd Hp).
Defined.

(** ** More on [execute] *)

(** X7: what [execute] emits around an operation that leaves the handler
    alone, when the drawn identifier is not in the list: on an empty list the
    name and then ['empty']; on a list with pending tasks the label of its
    head, once, and never the name.  The list is left as found and the
    operation's outcome is what [execute] settles with. *)
Theorem execute_notifications {R} (uuid4 : nat -> string) name
    (callable : M R) st outcome :
  ~ In (uuid4 (uuidsDrawn st)) (map id (_taskList st)) ->
  callable (snd (add uuid4 name st)) = (outcome, snd (add uuid4 name st)) ->
  execute uuid4 name callable st
  = (outcome,
     mkHandler (_taskList st)
               (_taskChanged st ++ match _taskList st with
                                   | [] => [name; "empty"]
                                   | r :: _ => [task r]
                                   end)
               (S (uuidsDrawn st))).
Proof.
  intros Hfresh Hop. rewrite execute_eq, Hop, add_eq.
  rewrite remove_on_nonempty by (simpl; apply app_cons_not_nil). simpl.
  rewrite excise_first_match; [| reflexivity |].
  - rewrite app_nil_r. destruct (_taskList st) as [|r l]; simpl.
    + rewrite <- app_assoc. reflexivity.
    + rewrite app_nil_r. reflexivity.
  - intros x Hx E. apply Hfresh. apply in_map_iff. exists x. auto.
Qed.

Lemma execute_notifications_witness :
  let st := mkHandler [mkTask "uuid" "clone"] ["clone"] 1 in
  ~ In (uuid_of 1) (map id (_taskList st))
  /\ execute uuid_of "fetch" (ret 7) st
     = (Normal 7, mkHandler [mkTask "uuid" "clone"] (["clone"] ++ ["clone"]) 2).
Proof.
  intros st.
  assert (H : ~ In (uuid_of 1) (map id (_taskList st))).
  { simpl. intros [E|[]]. discriminate. }
  split; [exact H|].
  apply (execute_notifications uuid_of "fetch" (ret 7) st (Normal 7) H).
  reflexivity.
Defined.

(** X8: when the list is empty by the time the operation settles, the
    [remove] of the [finally] block throws: [execute] settles with its
    [TypeError] whatever the operation returned or threw, and emits nothing
    more. *)
Theorem execute_throws_when_emptied {R} (uuid4 : nat -> string) name
    (callable : M R) st outcome st2 :
  callable (snd (add uuid4 name st)) = (outcome, st2) ->
  _taskList st2 = [] ->
  execute uuid4 name callable st = (Throw TypeError, st2).
Proof.
  intros Hop Hempty. rewrite execute_eq, Hop.
  rewrite remove_on_empty by exact Hempty. reflexivity.
Qed.

Lemma execute_throws_when_emptied_witness :
  let st2 := mkHandler [] ["fetch"; "empty"] 1 in
  remove "uuid" (snd (add uuid_of "fetch" constructor)) = (Normal tt, st2)
  /\ execute uuid_of "fetch" (remove "uuid") constructor = (Throw TypeError, st2).
Proof.
  intros st2. split; [reflexivity|].
  apply (execute_throws_when_emptied uuid_of "fetch" (remove "uuid")
           constructor (Normal tt) st2); reflexivity.
Defined.

(** ** [PastCommitNode.getBranchesForCommit] *)

Lemma for_each_filter {Branch : Type} (top_commit : Branch -> string)
    current_commit from_i : forall branches,
  PastCommitNode.for_each top_commit current_commit from_i branches
  = branches
    ++ filter (fun b => PastCommitNode.truthy (top_commit b)
                        && (top_commit b =? current_commit)%string) from_i.
Proof.
  induction from_i as [|b rest IH]; intros branches; simpl.
  - rewrite app_nil_r. reflexivity.
  - destruct (PastCommitNode.truthy (top_commit b)
              && (top_commit b =? current_commit)%string).
    + rewrite IH, <- app_assoc. reflexivity.
    + apply IH.
Qed.

(** X9: [getBranchesForCommit] returns the branches whose [top_commit] is the
    commit, all of them and in the order of [props.branches]; for a commit
    whose hash is the empty string it returns none, branches with an empty
    [top_commit] included. *)
Theorem getBranchesForCommit_filters {Branch : Type}
    (top_commit : Branch -> string) commit branches :
  PastCommitNode.getBranchesForCommit top_commit commit branches
  = if (commit =? "")%string then []
    else filter (fun b => (top_commit b =? commit)%string) branches.
Proof.
  unfold PastCommitNode.getBranchesForCommit. rewrite for_each_filter. simpl.
  destruct (String.eqb_spec commit "") as [E|E].
  - subst commit. induction branches as [|b rest IH]; simpl; [reflexivity|].
    unfold PastCommitNode.truthy at 1.
    destruct (top_commit b =? "")%string; simpl; exact IH.
  - apply filter_ext. intros b. unfold PastCommitNode.truthy.
    destruct (String.eqb_spec (top_commit b) commit) as [Eb|Eb].
    + rewrite Eb. rewrite (proj2 (String.eqb_neq _ _) E). reflexivity.
    + apply andb_false_r.
Qed.

(** ** [execute] keeps the identifiers distinct *)

(** X10: with a generator that never repeats itself, [execute] keeps the
    list well formed (identifiers pairwise distinct, each one drawn earlier)
    around every operation that does, however the operation settles. *)
Theorem execute_keeps_ids_distinct {R} (uuid4 : nat -> string) name
    (callable : M R) st :
  (forall m n, uuid4 m = uuid4 n -> m = n) ->
  (forall s, well_formed uuid4 s -> well_formed uuid4 (snd (callable s))) ->
  well_formed uuid4 st ->
  well_formed uuid4 (snd (execute uuid4 name callable st)).
Proof.
  intros Huniq Hop Hst. rewrite execute_eq.
  pose proof (Hop _ (add_well_formed uuid4 Huniq name st Hst)) as H2.
  destruct (callable (snd (add uuid4 name st))) as [outcome st2]. simpl in H2.
  pose proof (remove_well_formed uuid4 (uuid4 (uuidsDrawn st)) st2 H2) as H3.
  destruct (remove (uuid4 (uuidsDrawn st)) st2) as [[u|e] st3]; exact H3.
Qed.

Lemma execute_keeps_ids_distinct_witness :
  (forall m n, uuid_of m = uuid_of n -> m = n)
  /\ well_formed uuid_of constructor
  /\ snd (execute uuid_of "fetch" (add uuid_of "push") constructor)
     = mkHandler [mkTask "uuid+" "push"] ["fetch"; "push"] 2
  /\ well_formed uuid_of
       (snd (execute uuid_of "fetch" (add uuid_of "push") constructor)).
Proof.
  split; [exact uuid_of_unique|].
  split; [apply constructor_well_formed|].
  split; [reflexivity|].
  apply (execute_keeps_ids_distinct uuid_of "fetch" (add uuid_of "push")
           constructor uuid_of_unique).
  - intros s Hs. apply add_well_formed; [exact uuid_of_unique | exact Hs].
  - apply constructor_well_formed.
Defined.
